(** * FeatureTrackingApp (src/src/Project2.cpp): the frame update loop

    A shallow embedding of the Cinder application [FeatureTrackingApp]:
    its member variables become a record, its member functions become
    computations in a small state-and-trace monad, and the calls into
    OpenCV (feature detection, optical flow) and into the logger are
    recorded as events, so that "which collaborator was invoked on this
    tick" is a statement about the trace of [update]. *)

From Stdlib Require Import QArith String.
From stdpp Require Import base option list numbers.

Open Scope N_scope.

(** ** A state monad that also records calls to collaborators *)

Definition Eff (S E A : Type) : Type := S → A * S * list E.

Module Eff.
Definition ret {S E A} (a : A) : Eff S E A := λ s, (a, s, []).
Definition bind {S E A B} (m : Eff S E A) (k : A → Eff S E B) : Eff S E B :=
  λ s, let '(a, s1, t1) := m s in
       let '(b, s2, t2) := k a s1 in
       (b, s2, t1 ++ t2).
Definition get {S E} : Eff S E S := λ s, (s, s, []).
Definition modify {S E} (f : S → S) : Eff S E unit := λ s, (tt, f s, []).
Definition emit {S E} (e : E) : Eff S E unit := λ s, (tt, s, [e]).

(** The state and the trace a computation leaves behind. *)
Definition state {S E A} (m : Eff S E A) (s : S) : S := snd (fst (m s)).
Definition trace {S E A} (m : Eff S E A) (s : S) : list E := snd (m s).
End Eff.

Declare Scope eff_scope.
Delimit Scope eff_scope with eff.
Notation "'do' x <- m ; k" := (Eff.bind m (λ x, k))
  (at level 10, x name, m at level 100, k at level 200) : eff_scope.
Notation "m ;; k" := (Eff.bind m (λ _, k))
  (at level 100, k at level 200, right associativity) : eff_scope.

(** ** The external libraries

    [cv::goodFeaturesToTrack], [cv::calcOpticalFlowPyrLK] and the
    conversion [toOcv(Channel(surface))] live in OpenCV and Cinder; the
    application only calls them.  They are the fields of an interface,
    and every statement below is about an arbitrary implementation. *)

Class External := {
  Surface : Type;   (* ci::Surface, a captured camera frame *)
  Mat : Type;       (* the pixel data of a non-empty cv::Mat *)
  Point2f : Type;   (* cv::Point2f; the application never looks inside *)
  toOcv : Surface → Mat;
  (* image, maxCorners, qualityLevel, minDistance -> corners *)
  goodFeaturesToTrack : Mat → N → Q → Q → list Point2f;
  (* prevImg, nextImg, prevPts -> nextPts, status, err *)
  calcOpticalFlowPyrLK : Mat → Mat → list Point2f → list Point2f * list N * list Q
}.

(** The contract of the flow estimator that the application relies on
    and never checks: [nextPts] and [status] come back with one entry
    per input point (OpenCV resizes both output vectors to the size of
    [prevPts]).  Statements that need it take it as a hypothesis. *)
Definition parallel_outputs `{External} : Prop :=
  ∀ prevImg nextImg prevPts,
    let '(nextPts, status, _) := calcOpticalFlowPyrLK prevImg nextImg prevPts in
    length nextPts = length prevPts ∧ length status = length prevPts.

Definition SAMPLE_WINDOW_MOD : N := 300.
Definition MAX_FEATURES : N := 300.
(** The two literals of the call to [cv::goodFeaturesToTrack], kept as
    the decimals the source writes. *)
Definition QUALITY_LEVEL : Q := 0.005.
Definition MIN_DISTANCE : Q := 3.0.

(** ** Events: the calls that leave the application *)

Inductive Event `{External} : Type :=
  | LogException (msg : string) (exc : string)
  | GoodFeaturesToTrack (image : Mat) (maxCorners : N) (qualityLevel minDistance : Q)
  | CalcOpticalFlowPyrLK (prevImg nextImg : Mat) (prevPts : list Point2f).

Definition isDetect `{External} (e : Event) : bool :=
  match e with GoodFeaturesToTrack _ _ _ _ => true | _ => false end.
Definition isFlow `{External} (e : Event) : bool :=
  match e with CalcOpticalFlowPyrLK _ _ _ => true | _ => false end.
Definition isLog `{External} (e : Event) : bool :=
  match e with LogException _ _ => true | _ => false end.

Definition invokesDetector `{External} (tr : list Event) : bool := existsb isDetect tr.
Definition invokesFlow `{External} (tr : list Event) : bool := existsb isFlow tr.

(** ** The application state *)

(** The capture device that [Capture::create(640, 480)] returns. *)
Record Capture := { capWidth : N; capHeight : N }.

(** How the [try] block of [setup] ends: both statements succeed, or
    one of them throws a [ci::Exception]. *)
Inductive CaptureOutcome :=
  | Started
  | CreateThrows (exc : string)
  | StartThrows (exc : string).

Definition initFailed (o : CaptureOutcome) : bool :=
  match o with Started => false | _ => true end.

(** What the outside world provides on one pass of the event loop: the
    frame the camera has ready, if any ([checkNewFrame] / [getSurface]),
    and the value of [getElapsedFrames()], a [uint32_t]. *)
Record Tick `{External} := {
  newFrame : option Surface;
  elapsedFrames : N
}.

Record MouseEvent := { mouseX : Z; mouseY : Z }.

Record FeatureTrackingApp `{External} := {
  mCapture : option Capture;           (* a null CaptureRef is None *)
  mTexture : option Surface;           (* the texture holds the surface it was filled from *)
  mPrevFeatures : list Point2f;
  mFeatures : list Point2f;
  mPrevFrame : option Mat;             (* None when mPrevFrame.data is NULL *)
  mSurface : option Surface;
  mFeatureStatuses : list N            (* vector<uint8_t> *)
}.

Section App.
Context `{External}.

Local Open Scope eff_scope.

Abbreviation M := (Eff FeatureTrackingApp Event).

(** The object as the framework constructs it, before [setup]. *)
Definition constructed : FeatureTrackingApp :=
  {| mCapture := None; mTexture := None; mPrevFeatures := []; mFeatures := [];
     mPrevFrame := None; mSurface := None; mFeatureStatuses := [] |}.

Definition set_mCapture (c : option Capture) (s : FeatureTrackingApp) :=
  {| mCapture := c; mTexture := mTexture s; mPrevFeatures := mPrevFeatures s;
     mFeatures := mFeatures s; mPrevFrame := mPrevFrame s; mSurface := mSurface s;
     mFeatureStatuses := mFeatureStatuses s |}.
Definition set_mTexture (t : option Surface) (s : FeatureTrackingApp) :=
  {| mCapture := mCapture s; mTexture := t; mPrevFeatures := mPrevFeatures s;
     mFeatures := mFeatures s; mPrevFrame := mPrevFrame s; mSurface := mSurface s;
     mFeatureStatuses := mFeatureStatuses s |}.
Definition set_mPrevFeatures (l : list Point2f) (s : FeatureTrackingApp) :=
  {| mCapture := mCapture s; mTexture := mTexture s; mPrevFeatures := l;
     mFeatures := mFeatures s; mPrevFrame := mPrevFrame s; mSurface := mSurface s;
     mFeatureStatuses := mFeatureStatuses s |}.
Definition set_mFeatures (l : list Point2f) (s : FeatureTrackingApp) :=
  {| mCapture := mCapture s; mTexture := mTexture s; mPrevFeatures := mPrevFeatures s;
     mFeatures := l; mPrevFrame := mPrevFrame s; mSurface := mSurface s;
     mFeatureStatuses := mFeatureStatuses s |}.
Definition set_mPrevFrame (f : option Mat) (s : FeatureTrackingApp) :=
  {| mCapture := mCapture s; mTexture := mTexture s; mPrevFeatures := mPrevFeatures s;
     mFeatures := mFeatures s; mPrevFrame := f; mSurface := mSurface s;
     mFeatureStatuses := mFeatureStatuses s |}.
Definition set_mSurface (f : option Surface) (s : FeatureTrackingApp) :=
  {| mCapture := mCapture s; mTexture := mTexture s; mPrevFeatures := mPrevFeatures s;
     mFeatures := mFeatures s; mPrevFrame := mPrevFrame s; mSurface := f;
     mFeatureStatuses := mFeatureStatuses s |}.
Definition set_mFeatureStatuses (l : list N) (s : FeatureTrackingApp) :=
  {| mCapture := mCapture s; mTexture := mTexture s; mPrevFeatures := mPrevFeatures s;
     mFeatures := mFeatures s; mPrevFrame := mPrevFrame s; mSurface := mSurface s;
     mFeatureStatuses := l |}.

(** *** setup *)

(** [mCapture = Capture::create(640, 480); mCapture->start();] inside
    [try], with the [catch] that logs.  When [create] throws the
    assignment never happens; when [start] throws it already has. *)
Definition setup (o : CaptureOutcome) : M unit :=
  (match o with
   | Started =>
       Eff.modify (set_mCapture (Some {| capWidth := 640; capHeight := 480 |}))
   | CreateThrows exc =>
       Eff.emit (LogException "Failed to init capture " exc)
   | StartThrows exc =>
       Eff.modify (set_mCapture (Some {| capWidth := 640; capHeight := 480 |})) ;;
       Eff.emit (LogException "Failed to init capture " exc)
   end) ;;
  Eff.modify (set_mPrevFrame None).

(** *** mouseDown: the body is empty (only commented-out code) *)
Definition mouseDown (event : MouseEvent) : M unit := Eff.ret tt.

(** *** findOpticalFlow, statement by statement *)

(** [if( mFeatures.empty() || getElapsedFrames() % SAMPLE_WINDOW_MOD == 0 )] *)
Definition reseedDue (s : FeatureTrackingApp) (elapsed : N) : bool :=
  match mFeatures s with [] => true | _ => false end
  || (elapsed mod SAMPLE_WINDOW_MOD =? 0).

(** ... [cv::goodFeaturesToTrack( curFrame, mFeatures, MAX_FEATURES, 0.005, 3.0 );] *)
Definition reseed (curFrame : Mat) (elapsed : N) : M unit :=
  do s <- Eff.get;
  if reseedDue s elapsed then
    Eff.emit (GoodFeaturesToTrack curFrame MAX_FEATURES QUALITY_LEVEL MIN_DISTANCE) ;;
    Eff.modify (set_mFeatures
      (goodFeaturesToTrack curFrame MAX_FEATURES QUALITY_LEVEL MIN_DISTANCE))
  else Eff.ret tt.

(** [mPrevFeatures = mFeatures;] *)
Definition savePrevious : M unit :=
  Eff.modify (λ s, set_mPrevFeatures (mFeatures s) s).

(** [if( ! mFeatures.empty() ) cv::calcOpticalFlowPyrLK( mPrevFrame,
    curFrame, mPrevFeatures, mFeatures, mFeatureStatuses, errors );]
    The call overwrites [mFeatures] and [mFeatureStatuses]; [errors] is
    a local that is dropped.  [prevFrame] is the data of [mPrevFrame],
    which the enclosing [if( mPrevFrame.data )] found non-null. *)
Definition track (prevFrame curFrame : Mat) : M unit :=
  do s <- Eff.get;
  match mFeatures s with
  | [] => Eff.ret tt
  | _ :: _ =>
      let '(nextPts, status, errors) :=
        calcOpticalFlowPyrLK prevFrame curFrame (mPrevFeatures s) in
      Eff.emit (CalcOpticalFlowPyrLK prevFrame curFrame (mPrevFeatures s)) ;;
      Eff.modify (λ s, set_mFeatureStatuses status (set_mFeatures nextPts s))
  end.

Definition findOpticalFlow (elapsed : N) : M unit :=
  do s <- Eff.get;
  match mSurface s with
  | None => Eff.ret tt                                   (* if(!mSurface) return; *)
  | Some surface =>
      let curFrame := toOcv surface in
      (match mPrevFrame s with
       | Some prevFrame =>
           reseed curFrame elapsed ;;
           savePrevious ;;
           track prevFrame curFrame
       | None => Eff.ret tt
       end) ;;
      Eff.modify (set_mPrevFrame (Some curFrame))        (* mPrevFrame = curFrame; *)
  end.

(** *** update *)

(** [mCapture && mCapture->checkNewFrame()]: the frame the camera
    hands over on this tick.  A null [mCapture] is never polled. *)
Definition delivered (s : FeatureTrackingApp) (t : Tick) : option Surface :=
  match mCapture s with
  | Some _ => newFrame t
  | None => None
  end.

Definition update (t : Tick) : M unit :=
  do s <- Eff.get;
  (match delivered s t with
   | Some surface =>
       Eff.modify (set_mSurface (Some surface)) ;;
       (* Texture::create when there is none, mTexture->update otherwise *)
       match mTexture s with
       | None => Eff.modify (set_mTexture (Some surface))
       | Some _ => Eff.modify (set_mTexture (Some surface))
       end
   | None => Eff.ret tt
   end) ;;
  findOpticalFlow (elapsedFrames t).

(** Several passes of the event loop, traces concatenated. *)
Fixpoint updates (ts : list Tick) : M unit :=
  match ts with
  | [] => Eff.ret tt
  | t :: ts' => update t ;; updates ts'
  end.

(** *** draw *)

(** The commands [draw] sends to OpenGL, in order. *)
Inductive GL : Type :=
  | glClear (r g b : Q)
  | glColor (r g b a : Q)
  | glDrawTexture (tex : Surface)
  | glDrawStrokedCircle (center : Point2f) (radius : Q)
  | glDrawSolidCircle (center : Point2f) (radius : Q)
  | glBegin_LINES
  | glVertex (p : Point2f)
  | glEnd.

(** The body of the last loop at one index: [mFeatureStatuses[idx]] is
    read first, and [mFeatures[idx]], [mPrevFeatures[idx]] only when it
    is nonzero.  [operator[]] is unchecked, so a read past the end of a
    vector is undefined behaviour: the result is [None]. *)
Definition lineAt (s : FeatureTrackingApp) (idx : nat) : option (list GL) :=
  status ← mFeatureStatuses s !! idx;
  if status =? 0 then Some []
  else cur ← mFeatures s !! idx;
       prev ← mPrevFeatures s !! idx;
       Some [glVertex cur; glVertex prev].

(** [for( size_t idx = 0; idx < mFeatures.size(); ++idx )], with
    [remaining] the number of iterations still to run. *)
Fixpoint flowLines (s : FeatureTrackingApp) (remaining idx : nat) : option (list GL) :=
  match remaining with
  | O => Some []
  | S remaining' =>
      seg ← lineAt s idx;
      rest ← flowLines s remaining' (S idx);
      Some (seg ++ rest)
  end.

(** What [draw] sends before it opens the line list: the clear, the
    camera texture when there is one, and the two sets of circles.  The
    two circle loops index the vector they iterate over, so they are
    plain maps. *)
Definition overlay (s : FeatureTrackingApp) : list GL :=
  [glClear 0 0 0; glColor 1 1 1 0.55]
  ++ match mTexture s with Some tex => [glDrawTexture tex] | None => [] end
  ++ [glColor 1 0 0 0.55]
  ++ map (λ p, glDrawStrokedCircle p 3) (mPrevFeatures s)
  ++ [glColor 0 0 1 0.5]
  ++ map (λ p, glDrawSolidCircle p 3) (mFeatures s)
  ++ [glColor 0 1 0 0.5].

Definition draw (s : FeatureTrackingApp) : option (list GL) :=
  lines ← flowLines s (length (mFeatures s)) 0;
  Some (overlay s ++ glBegin_LINES :: lines ++ [glEnd]).

(** *** The states the running application can be in *)

Inductive reachable : FeatureTrackingApp → Prop :=
  | reach_setup o : reachable (Eff.state (setup o) constructed)
  | reach_update s t : reachable s → reachable (Eff.state (update t) s)
  | reach_mouseDown s ev : reachable s → reachable (Eff.state (mouseDown ev) s).

(** *** Notions the statements are written with *)

(** The corners a re-detection on [curFrame] yields. *)
Definition fresh (curFrame : Mat) : list Point2f :=
  goodFeaturesToTrack curFrame MAX_FEATURES QUALITY_LEVEL MIN_DISTANCE.

(** The surface [findOpticalFlow] works on: the one just delivered, or
    else the one kept from an earlier tick. *)
Definition current (s : FeatureTrackingApp) (t : Tick) : option Surface :=
  match delivered s t with
  | Some surface => Some surface
  | None => mSurface s
  end.

(** A previous frame is stored exactly when a surface has been
    captured, and before that nothing has been detected or tracked. *)
Definition consistent (s : FeatureTrackingApp) : Prop :=
  (mPrevFrame s = None ↔ mSurface s = None) ∧
  (mPrevFrame s = None →
   mFeatures s = [] ∧ mPrevFeatures s = [] ∧ mFeatureStatuses s = []).

(** The feature list the flow step of a tick finds: the fresh corners
    when a re-seed was due, the list of the previous tick otherwise. *)
Definition featuresToTrack (s : FeatureTrackingApp) (elapsed : N) (curFrame : Mat)
  : list Point2f :=
  if reseedDue s elapsed then fresh curFrame else mFeatures s.

(** The calls one tick makes: nothing without a surface or without a
    previous frame; otherwise the detector when a re-seed is due, then
    the flow estimator when the list it would work on is not empty. *)
Definition callsOf (s : FeatureTrackingApp) (t : Tick) : list Event :=
  match current s t, mPrevFrame s with
  | Some surface, Some prevFrame =>
      let curFrame := toOcv surface in
      (if reseedDue s (elapsedFrames t)
       then [GoodFeaturesToTrack curFrame MAX_FEATURES QUALITY_LEVEL MIN_DISTANCE]
       else [])
      ++ match featuresToTrack s (elapsedFrames t) curFrame with
         | [] => []
         | _ :: _ =>
             [CalcOpticalFlowPyrLK prevFrame curFrame
                (featuresToTrack s (elapsedFrames t) curFrame)]
         end
  | _, _ => []
  end.

(** The state in the middle of a tick, once the camera has been polled
    and before [findOpticalFlow] runs. *)
Definition afterCamera (s : FeatureTrackingApp) (t : Tick) : FeatureTrackingApp :=
  match delivered s t with
  | Some surface => set_mTexture (Some surface) (set_mSurface (Some surface) s)
  | None => s
  end.

(** Index [i] of the line loop sends the segment between the current
    and the previous position of feature [i]. *)
Definition emitsLineAt (s : FeatureTrackingApp) (i : nat) : Prop :=
  ∃ cur prev,
    mFeatures s !! i = Some cur ∧ mPrevFeatures s !! i = Some prev ∧
    lineAt s i = Some [glVertex cur; glVertex prev].

(** Every index the line loop visits is inside the status vector and
    inside the previous-feature vector. *)
Definition inBounds (s : FeatureTrackingApp) : Prop :=
  (length (mFeatures s) ≤ length (mFeatureStatuses s))%nat ∧
  (length (mFeatures s) ≤ length (mPrevFeatures s))%nat.

(** The vertices among the commands of [draw], and the statuses that
    count as a match. *)
Definition isVertex (c : GL) : bool :=
  match c with glVertex _ => true | _ => false end.

Definition matched (status : N) : bool := negb (status =? 0).

(** The converted current surface, when there is one. *)
Definition currentFrame (s : FeatureTrackingApp) (t : Tick) : option Mat :=
  match current s t with
  | Some surface => Some (toOcv surface)
  | None => None
  end.

(** The frame a polled camera delivered last over a sequence of
    ticks, [kept] when it delivered none. *)
Definition latestFrame (ts : list Tick) (kept : option Surface) : option Surface :=
  fold_left (λ acc t, match newFrame t with Some surface => Some surface | None => acc end)
    ts kept.

End App.

(** ** A concrete world to run the application in

    Frames are numbered, points are integer pixel positions.  The
    detector finds two corners in every frame but frame 0 (a dark
    frame); the flow estimator moves every point one pixel to the right
    and reports the first point as matched and later ones as lost. *)
Module Demo.

Definition shift (p : Z * Z) : Z * Z := (fst p + 1, snd p)%Z.

Definition statuses (n : nat) : list N :=
  match n with
  | O => []
  | S n' => 1 :: repeat 0 n'
  end.

#[export] Instance world : External := {|
  Surface := nat;
  Mat := nat;
  Point2f := Z * Z;
  toOcv := λ surface, surface;
  goodFeaturesToTrack := λ image _ _ _,
    match image with O => [] | _ => [(10, 10)%Z; (20, 30)%Z] end;
  calcOpticalFlowPyrLK := λ _ _ prevPts,
    (map shift prevPts, statuses (length prevPts), map (λ _, 0%Q) prevPts)
|}.

Definition frame (n : nat) (elapsed : N) : Tick :=
  {| newFrame := Some n; elapsedFrames := elapsed |}.
Definition noFrame (elapsed : N) : Tick :=
  {| newFrame := None; elapsedFrames := elapsed |}.

(** The application after [setup] with a working camera, and after the
    first and second captured frame. *)
Definition booted : FeatureTrackingApp := Eff.state (setup Started) constructed.
Definition afterFirst : FeatureTrackingApp := Eff.state (update (frame 1 1)) booted.
Definition afterSecond : FeatureTrackingApp := Eff.state (update (frame 2 2)) afterFirst.

End Demo.

(** * Properties *)

Section Properties.
Context `{External}.

(** Case analysis on whatever the goal branches on next. *)
Ltac case_split :=
  match goal with
  | |- context [match ?x with _ => _ end] =>
      lazymatch x with
      | context [match _ with _ => _ end] => fail
      | _ => destruct x eqn:?
      end
  end.

Ltac eff_unfold :=
  unfold Eff.state, Eff.trace, updates, update, findOpticalFlow, reseed, savePrevious,
    track, mouseDown, setup, Eff.bind, Eff.get, Eff.modify, Eff.emit, Eff.ret in *.

Lemma reseedDue_spec s e :
  reseedDue s e = true ↔ (mFeatures s = [] ∨ e mod 300 = 0).
Proof.
  unfold reseedDue, SAMPLE_WINDOW_MOD.
  rewrite orb_true_iff, N.eqb_eq.
  destruct (mFeatures s); intuition congruence.
Qed.

(** *** What is true of every reachable state *)

Lemma setup_consistent o : consistent (Eff.state (setup o) constructed).
Proof. destruct o; split; cbn; intuition. Qed.

Lemma update_consistent s t : consistent s → consistent (Eff.state (update t) s).
Proof.
  intros [Hiff Hempty]. eff_unfold. unfold delivered, reseedDue.
  destruct s as [cap tex prevs feats prevFrame surf stats]; cbn in *.
  repeat (case_split; cbn in * ).
  all: split; cbn; intuition congruence.
Qed.

Lemma reachable_consistent s : reachable s → consistent s.
Proof.
  induction 1 as [o | s t _ IH | s ev _ IH].
  - apply setup_consistent.
  - by apply update_consistent.
  - exact IH.
Qed.

(** *** One tick, in closed form *)

Lemma update_trace s t : Eff.trace (update t) s = callsOf s t.
Proof.
  unfold callsOf, current, featuresToTrack, fresh. eff_unfold. unfold delivered.
  destruct s as [cap tex prevs feats prevFrame surf stats]; cbn.
  destruct (reseedDue _ _) eqn:Hdue; unfold reseedDue in Hdue; cbn in Hdue;
    repeat (case_split; cbn in * ); try congruence.
  all: rewrite ?Hdue in *; cbn in *; congruence.
Qed.

Lemma update_no_surface s t :
  delivered s t = None → mSurface s = None → update t s = (tt, s, []).
Proof. intros Hd Hs. eff_unfold. by rewrite Hd, Hs. Qed.

Lemma update_without_previous_frame s t surface :
  consistent s → mPrevFrame s = None → delivered s t = Some surface →
  Eff.trace (update t) s = [] ∧
  mPrevFrame (Eff.state (update t) s) = Some (toOcv surface) ∧
  mFeatures (Eff.state (update t) s) = [] ∧
  mPrevFeatures (Eff.state (update t) s) = [].
Proof.
  intros [_ Hempty] Hprev Hd. destruct (Hempty Hprev) as (Hf & Hp & _).
  eff_unfold. rewrite Hd.
  destruct s as [cap tex prevs feats prevFrame surf stats]; cbn in *; subst.
  by destruct tex.
Qed.

Lemma updates_app ts1 ts2 s :
  Eff.state (updates (ts1 ++ ts2)) s = Eff.state (updates ts2) (Eff.state (updates ts1) s) ∧
  Eff.trace (updates (ts1 ++ ts2)) s
    = Eff.trace (updates ts1) s ++ Eff.trace (updates ts2) (Eff.state (updates ts1) s).
Proof.
  revert s. induction ts1 as [|t ts1 IH]; intros s; [done|].
  cbn [app updates]. unfold Eff.state, Eff.trace, Eff.bind in *.
  destruct (update t s) as [[[] s1] tr1]. specialize (IH s1).
  destruct (updates (ts1 ++ ts2) s1) as [[[] s2] tr2].
  destruct (updates ts1 s1) as [[[] s3] tr3]. cbn in *.
  destruct IH as [-> ->]. by rewrite app_assoc.
Qed.

Lemma updates_idle ts s :
  mSurface s = None → Forall (λ t, delivered s t = None) ts →
  updates ts s = (tt, s, []).
Proof.
  intros Hs. induction 1 as [|t ts Ht _ IH]; [done|].
  cbn [updates]. unfold Eff.bind. by rewrite (update_no_surface _ _ Ht Hs), IH.
Qed.

Lemma setup_state o :
  mSurface (Eff.state (setup o) constructed) = None ∧
  mPrevFrame (Eff.state (setup o) constructed) = None ∧
  mCapture (Eff.state (setup o) constructed)
    = match o with
      | CreateThrows _ => None
      | _ => Some {| capWidth := 640; capHeight := 480 |}
      end.
Proof. by destruct o. Qed.

(** When [Capture::create] threw, [mCapture] stays null and the camera
    is never asked for a frame. *)
Lemma create_throws_never_delivers exc t :
  delivered (Eff.state (setup (CreateThrows exc)) constructed) t = None.
Proof. reflexivity. Qed.

(** *** The claims about one tick *)

(** C1. On a tick with a previous frame stored, the Feature Detector is
    invoked exactly when the feature list is empty or the elapsed-frame
    counter is a multiple of 300; on every other such tick the detector
    is not invoked and the Flow Estimator is, on the (then non-empty)
    current feature list. *)
Theorem redetect_exactly_when_due s t :
  reachable s → mPrevFrame s ≠ None →
  let tr := Eff.trace (update t) s in
  (invokesDetector tr = true ↔ (mFeatures s = [] ∨ elapsedFrames t mod 300 = 0)) ∧
  (¬ (mFeatures s = [] ∨ elapsedFrames t mod 300 = 0) →
   invokesDetector tr = false ∧ invokesFlow tr = true ∧ mFeatures s ≠ []).
Proof.
  intros Hreach Hprev tr.
  assert (Hcur : is_Some (current s t)).
  { unfold current. destruct (delivered s t); [by eexists|].
    destruct (reachable_consistent _ Hreach) as [Hiff _].
    destruct (mSurface s); [by eexists | by destruct Hprev; apply Hiff]. }
  destruct Hcur as [surface Hcur].
  destruct (mPrevFrame s) as [prevFrame|] eqn:Hpf; [clear Hprev | done].
  subst tr. rewrite update_trace. unfold callsOf, featuresToTrack.
  rewrite Hcur, Hpf, <- reseedDue_spec.
  destruct (reseedDue s (elapsedFrames t)) eqn:Hdue; cbn.
  - split; [done | intros []; done].
  - unfold reseedDue in Hdue. destruct (mFeatures s); [done|].
    cbn. split; [split; [done | intros Hd; discriminate Hd] | done].
Qed.

(** On a re-detection tick the Flow Estimator runs as well, in the same
    tick, unless the detector found nothing. *)
Lemma flow_follows_redetection s t surface prevFrame :
  current s t = Some surface → mPrevFrame s = Some prevFrame →
  reseedDue s (elapsedFrames t) = true →
  invokesFlow (Eff.trace (update t) s) = true ↔ fresh (toOcv surface) ≠ [].
Proof.
  intros Hcur Hprev Hdue. rewrite update_trace. unfold callsOf, featuresToTrack.
  rewrite Hcur, Hprev, Hdue. cbn.
  by destruct (fresh (toOcv surface)).
Qed.

(** C2. The first update call that receives a camera frame: after
    [setup] and any number of ticks on which no frame arrived, the tick
    that delivers [surface] invokes neither collaborator, stores the
    frame as the previous frame, and leaves both feature lists empty. *)
Theorem first_frame_only_stored o idle t surface :
  let s0 := Eff.state (setup o) constructed in
  let s1 := Eff.state (updates idle) s0 in
  Forall (λ t', delivered s0 t' = None) idle →
  delivered s0 t = Some surface →
  Eff.trace (updates idle) s0 = [] ∧
  Eff.trace (update t) s1 = [] ∧
  mPrevFrame (Eff.state (update t) s1) = Some (toOcv surface) ∧
  mFeatures (Eff.state (update t) s1) = [] ∧
  mPrevFeatures (Eff.state (update t) s1) = [].
Proof.
  intros s0 s1 Hidle Hd.
  destruct (setup_state o) as (Hsurf & Hprev & _).
  assert (Hrun : updates idle s0 = (tt, s0, [])) by by apply updates_idle.
  subst s1. unfold Eff.state at 1 3 5 7, Eff.trace at 1. rewrite Hrun. cbn [fst snd].
  split; [done|].
  apply update_without_previous_frame; [apply setup_consistent | done | done].
Qed.

(** C4, as the code has it.  A tick on which the camera delivers no
    frame is a no-op as long as no frame has ever been captured: the
    whole state is unchanged and no collaborator is invoked. *)
Theorem no_frame_no_surface_is_noop s t :
  delivered s t = None → mSurface s = None →
  Eff.state (update t) s = s ∧ Eff.trace (update t) s = [].
Proof.
  intros Hd Hs. unfold Eff.state, Eff.trace. by rewrite update_no_surface.
Qed.

(** C8. When the capture cannot be initialised, [setup] logs exactly
    once and returns; from then on every tick leaves the whole state
    unchanged and invokes neither collaborator.  A capture whose
    [create] threw is never polled; one whose [start] threw is, and is
    taken to have nothing to deliver. *)
Theorem failed_capture_permanent_noop o ts :
  let s0 := Eff.state (setup o) constructed in
  initFailed o = true →
  (∀ exc, o = StartThrows exc → Forall (λ t, newFrame t = None) ts) →
  length (filter (λ e, isLog e = true) (Eff.trace (setup o) constructed)) = 1%nat ∧
  Eff.state (updates ts) s0 = s0 ∧
  Eff.trace (updates ts) s0 = [].
Proof.
  intros s0 Hfail Hstart.
  split; [by destruct o|].
  assert (Hrun : updates ts s0 = (tt, s0, [])).
  { apply updates_idle; [apply setup_state|].
    destruct o as [|exc|exc]; [done | |].
    - apply Forall_forall. intros t _. apply create_throws_never_delivers.
    - generalize (Hstart exc eq_refl). apply List.Forall_impl.
      intros t Ht. unfold delivered. by destruct (mCapture s0). }
  unfold Eff.state, Eff.trace. by rewrite Hrun.
Qed.

(** C10. [mouseDown] does nothing: the state after any mouse event is
    the state before it, and nothing is called. *)
Theorem mouseDown_changes_nothing event s :
  Eff.state (mouseDown event) s = s ∧ Eff.trace (mouseDown event) s = [].
Proof. done. Qed.

(** *** The state a tracking tick leaves behind *)

Lemma update_state_tracking s t surface prevFrame :
  current s t = Some surface → mPrevFrame s = Some prevFrame →
  let curFrame := toOcv surface in
  let feats := featuresToTrack s (elapsedFrames t) curFrame in
  let s' := Eff.state (update t) s in
  mPrevFeatures s' = feats ∧
  mPrevFrame s' = Some curFrame ∧
  match feats with
  | [] => mFeatures s' = [] ∧ mFeatureStatuses s' = mFeatureStatuses s
  | _ :: _ =>
      mFeatures s' = (calcOpticalFlowPyrLK prevFrame curFrame feats).1.1 ∧
      mFeatureStatuses s' = (calcOpticalFlowPyrLK prevFrame curFrame feats).1.2
  end.
Proof.
  unfold current, featuresToTrack, fresh. eff_unfold. unfold delivered, reseedDue.
  destruct s as [cap tex prevs feats prevFrame' surf stats]; cbn.
  intros Hcur ->.
  destruct cap, (newFrame t), tex, surf; cbn in *; simplify_eq.
  all: destruct (_ || _); cbn.
  all: match goal with
       | |- context [match ?l with [] => _ | _ :: _ => _ end] => destruct l eqn:?
       end; cbn; try done.
  all: destruct (calcOpticalFlowPyrLK _ _ _) as [[nextPts status] errors]; done.
Qed.

Lemma update_state_untracked s t :
  current s t = None ∨ mPrevFrame s = None →
  let s' := Eff.state (update t) s in
  mFeatures s' = mFeatures s ∧ mPrevFeatures s' = mPrevFeatures s ∧
  mFeatureStatuses s' = mFeatureStatuses s.
Proof.
  unfold current. eff_unfold. unfold delivered.
  destruct s as [cap tex prevs feats prevFrame' surf stats]; cbn.
  intros [Hcur | ->]; repeat (case_split; cbn in * ); simplify_eq; done.
Qed.

Lemma mid_tick_state s t surface :
  current s t = Some surface →
  mSurface (afterCamera s t) = Some surface ∧
  mPrevFrame (afterCamera s t) = mPrevFrame s ∧
  mFeatures (afterCamera s t) = mFeatures s ∧
  reseedDue (afterCamera s t) (elapsedFrames t) = reseedDue s (elapsedFrames t).
Proof.
  unfold current, afterCamera, reseedDue.
  destruct (delivered s t); cbn; intros ?; by simplify_eq.
Qed.

Lemma update_after_camera s t :
  update t s = findOpticalFlow (elapsedFrames t) (afterCamera s t).
Proof.
  unfold update, afterCamera, Eff.bind, Eff.get, Eff.modify, Eff.ret.
  destruct (delivered s t), (mTexture s); cbn -[findOpticalFlow];
    by match goal with
       | |- context [findOpticalFlow ?e ?x] => destruct (findOpticalFlow e x) as [[[] ?] ?]
       end.
Qed.

Lemma findOpticalFlow_phases s elapsed surface prevFrame :
  mSurface s = Some surface → mPrevFrame s = Some prevFrame →
  let curFrame := toOcv surface in
  Eff.state (findOpticalFlow elapsed) s
  = Eff.state (track prevFrame curFrame ;; Eff.modify (set_mPrevFrame (Some curFrame)))%eff
      (Eff.state (reseed curFrame elapsed ;; savePrevious)%eff s).
Proof.
  intros Hsurf Hprev curFrame.
  unfold findOpticalFlow, savePrevious, Eff.state, Eff.bind, Eff.get, Eff.modify.
  rewrite Hsurf, Hprev. fold curFrame.
  destruct (reseed curFrame elapsed s) as [[[] s1] tr1]. cbn -[track].
  by destruct (track prevFrame curFrame _) as [[[] s2] tr2].
Qed.

(** C3, as the code has it.  On a tick on which re-detection occurs,
    once the copy [mPrevFeatures = mFeatures] that follows it has run
    both lists are the freshly detected set; what remains of the tick
    is the flow step on that state.  So when the tick completes
    [mPrevFeatures] is the detected set, and [mFeatures] is the detected
    set too when it is empty, and otherwise whatever the Flow Estimator
    returned for it. *)
Theorem redetect_equal_until_flow s t surface prevFrame :
  current s t = Some surface → mPrevFrame s = Some prevFrame →
  reseedDue s (elapsedFrames t) = true →
  let curFrame := toOcv surface in
  let mid := Eff.state (reseed curFrame (elapsedFrames t) ;; savePrevious)%eff
               (afterCamera s t) in
  let s' := Eff.state (update t) s in
  (mFeatures mid = fresh curFrame ∧ mPrevFeatures mid = fresh curFrame) ∧
  s' = Eff.state (track prevFrame curFrame ;;
                  Eff.modify (set_mPrevFrame (Some curFrame)))%eff mid ∧
  mPrevFeatures s' = fresh curFrame ∧
  mFeatures s' = match fresh curFrame with
                 | [] => []
                 | _ :: _ => (calcOpticalFlowPyrLK prevFrame curFrame (fresh curFrame)).1.1
                 end.
Proof.
  intros Hcur Hprev Hdue curFrame mid s'.
  destruct (mid_tick_state _ _ _ Hcur) as (Hsurf & Hpf & Hfeats & Hdue').
  rewrite Hdue in Hdue'.
  destruct (update_state_tracking s t surface prevFrame Hcur Hprev) as (Hp & _ & Hf).
  unfold featuresToTrack in Hp, Hf. rewrite Hdue in Hp, Hf.
  fold curFrame in Hp, Hf. fold s' in Hp, Hf.
  assert (Hmid : mFeatures mid = fresh curFrame ∧ mPrevFeatures mid = fresh curFrame).
  { subst mid. eff_unfold. by rewrite Hdue'. }
  split; [exact Hmid|]. split; [|split; [exact Hp|]].
  - subst s' mid. unfold Eff.state at 1. rewrite update_after_camera.
    apply findOpticalFlow_phases; [exact Hsurf | by rewrite Hpf].
  - destruct (fresh curFrame); by destruct Hf.
Qed.

(** C5. When the Flow Estimator returns one position and one status
    per input point, every tick on which it is invoked ends with the
    current features, the previous features and the statuses of equal
    length, which is the length of the list the estimator was given:
    lost features are marked in the statuses, never removed. *)
Theorem flow_keeps_sequences_parallel s t :
  parallel_outputs →
  invokesFlow (Eff.trace (update t) s) = true →
  let s' := Eff.state (update t) s in
  length (mFeatures s') = length (mPrevFeatures s') ∧
  length (mFeatureStatuses s') = length (mPrevFeatures s') ∧
  ∃ surface, current s t = Some surface ∧
    mPrevFeatures s' = featuresToTrack s (elapsedFrames t) (toOcv surface).
Proof.
  intros Hpar Hflow s'. rewrite update_trace in Hflow. unfold callsOf in Hflow.
  destruct (current s t) as [surface|] eqn:Hcur; [|done].
  destruct (mPrevFrame s) as [prevFrame|] eqn:Hprev; [|done].
  destruct (update_state_tracking s t surface prevFrame Hcur Hprev) as (Hp & _ & Hf).
  fold s' in Hp, Hf.
  destruct (featuresToTrack s (elapsedFrames t) (toOcv surface)) as [|p feats] eqn:Hfeats.
  { unfold invokesFlow in Hflow. rewrite existsb_app in Hflow.
    by destruct (reseedDue s (elapsedFrames t)). }
  destruct Hf as [Hnext Hstat]. rewrite Hnext, Hstat, Hp.
  specialize (Hpar prevFrame (toOcv surface) (p :: feats)).
  destruct (calcOpticalFlowPyrLK _ _ _) as [[nextPts status] errors]. cbn.
  destruct Hpar as [-> ->]. eauto.
Qed.

(** *** The line loop of draw *)

Lemma lineAt_cases s i segment :
  lineAt s i = Some segment →
  ∃ status, mFeatureStatuses s !! i = Some status ∧
    ((status = 0 ∧ segment = []) ∨
     (status ≠ 0 ∧ ∃ cur prev,
        mFeatures s !! i = Some cur ∧ mPrevFeatures s !! i = Some prev ∧
        segment = [glVertex cur; glVertex prev])).
Proof.
  unfold lineAt. intros Hline.
  destruct (mFeatureStatuses s !! i) as [st|] eqn:Hst; [|done].
  exists st. split; [done|]. cbn in Hline.
  destruct (N.eqb_spec st 0) as [->|Hne].
  - left. by simplify_eq.
  - right. split; [done|].
    destruct (mFeatures s !! i) as [cur|]; [|done].
    destruct (mPrevFeatures s !! i) as [prev|]; [|done].
    cbn in Hline. simplify_eq. eauto.
Qed.

Lemma flowLines_spec s remaining idx lines :
  flowLines s remaining idx = Some lines →
  lines = concat (map (λ i, default [] (lineAt s i)) (seq idx remaining)) ∧
  ∀ i, (idx ≤ i < idx + remaining)%nat → is_Some (lineAt s i).
Proof.
  revert idx lines. induction remaining as [|remaining IH]; intros idx lines Hrun.
  - cbn in Hrun. simplify_eq. split; [done | lia].
  - cbn [flowLines] in Hrun.
    destruct (lineAt s idx) as [segment|] eqn:Hseg; [|done]. cbn in Hrun.
    destruct (flowLines s remaining (S idx)) as [rest|] eqn:Hrest; [|done].
    cbn in Hrun. simplify_eq.
    destruct (IH _ _ Hrest) as [-> Hsome]. split.
    + cbn. by rewrite Hseg.
    + intros i Hi. destruct (decide (i = idx)) as [->|Hne]; [by eexists|].
      apply Hsome. lia.
Qed.

Lemma flowLines_in_bounds s remaining idx :
  (idx + remaining ≤ length (mFeatures s))%nat → inBounds s →
  is_Some (flowLines s remaining idx).
Proof.
  intros Hlen [Hstat Hprev]. revert idx Hlen.
  induction remaining as [|remaining IH]; intros idx Hlen; [by eexists|].
  cbn [flowLines]. unfold lineAt.
  destruct (lookup_lt_is_Some_2 (mFeatureStatuses s) idx) as [status ->]; [lia|].
  destruct (lookup_lt_is_Some_2 (mFeatures s) idx) as [cur ->]; [lia|].
  destruct (lookup_lt_is_Some_2 (mPrevFeatures s) idx) as [prev ->]; [lia|].
  destruct (IH (S idx)) as [rest ->]; [lia|].
  cbn. destruct (status =? 0); by eexists.
Qed.

Lemma overlay_has_no_vertex s p : glVertex p ∉ overlay s.
Proof.
  unfold overlay. rewrite !elem_of_app, !list_elem_of_In, !in_map_iff, <- !list_elem_of_In.
  intros [Hin | [Hin | [Hin | [Hin | [Hin | [Hin | Hin]]]]]].
  - repeat (apply elem_of_cons in Hin as [Hin|Hin]; [discriminate|]).
    by apply elem_of_nil in Hin.
  - destruct (mTexture s); [apply list_elem_of_singleton in Hin; discriminate|].
    by apply elem_of_nil in Hin.
  - apply list_elem_of_singleton in Hin; discriminate.
  - by destruct Hin as (? & ? & _).
  - apply list_elem_of_singleton in Hin; discriminate.
  - by destruct Hin as (? & ? & _).
  - apply list_elem_of_singleton in Hin; discriminate.
Qed.

Lemma draw_shape s cmds :
  draw s = Some cmds →
  ∃ lines, flowLines s (length (mFeatures s)) 0 = Some lines ∧
    cmds = overlay s ++ glBegin_LINES :: lines ++ [glEnd].
Proof.
  unfold draw.
  destruct (flowLines s (length (mFeatures s)) 0) as [lines|]; [|done].
  cbn. intros ?; simplify_eq. by exists lines.
Qed.

(** C6. Whenever [draw] completes, the vertices it sends are those of
    its line loop, between [glBegin_LINES] and [glEnd]: the
    concatenation, over the indices of the current-feature list in
    order, of what each index sends.  Index [i] sends the segment
    between [mFeatures[i]] and [mPrevFeatures[i]] if and only if
    [mFeatureStatuses[i]] is nonzero, and sends nothing when it is zero. *)
Theorem line_drawn_iff_status_nonzero s cmds :
  draw s = Some cmds →
  ∃ lines,
    cmds = overlay s ++ glBegin_LINES :: lines ++ [glEnd] ∧
    (∀ p, glVertex p ∉ overlay s) ∧
    lines = concat (map (λ i, default [] (lineAt s i)) (seq 0 (length (mFeatures s)))) ∧
    ∀ i, (i < length (mFeatures s))%nat →
      ∃ status, mFeatureStatuses s !! i = Some status ∧
        (emitsLineAt s i ↔ status ≠ 0) ∧
        (status = 0 → lineAt s i = Some []).
Proof.
  intros Hdraw. destruct (draw_shape _ _ Hdraw) as (lines & Hrun & Hcmds).
  exists lines. split; [exact Hcmds|]. split; [apply overlay_has_no_vertex|].
  destruct (flowLines_spec _ _ _ _ Hrun) as [Hlines Hsome].
  split; [exact Hlines|]. intros i Hi.
  destruct (Hsome i) as [segment Hseg]; [lia|].
  destruct (lineAt_cases _ _ _ Hseg) as (status & Hstat & Hcases).
  exists status. split; [done|].
  destruct Hcases as [[-> ->] | (Hne & cur & prev & Hcur & Hprev & ->)].
  - split; [|done]. split; [|done].
    intros (cur & prev & _ & _ & Hline). rewrite Hseg in Hline. discriminate.
  - split; [|done]. split; [done|]. intros _. by exists cur, prev.
Qed.

(** *** The detector's arguments *)

Lemma detector_args_tick s t image n q d :
  GoodFeaturesToTrack image n q d ∈ Eff.trace (update t) s →
  n = MAX_FEATURES ∧ q = QUALITY_LEVEL ∧ d = MIN_DISTANCE.
Proof.
  rewrite update_trace. unfold callsOf.
  destruct (current s t); [|by intros ?%elem_of_nil].
  destruct (mPrevFrame s); [|by intros ?%elem_of_nil].
  intros [Hin|Hin]%elem_of_app.
  - destruct (reseedDue _ _); [|by apply elem_of_nil in Hin].
    apply list_elem_of_singleton in Hin. by simplify_eq.
  - destruct (featuresToTrack _ _ _); [by apply elem_of_nil in Hin|].
    apply list_elem_of_singleton in Hin. discriminate.
Qed.

Lemma updates_trace_elem ts s e :
  e ∈ Eff.trace (updates ts) s → ∃ s' t, e ∈ Eff.trace (update t) s'.
Proof.
  revert s. induction ts as [|t ts IH]; intros s; [by intros ?%elem_of_nil|].
  cbn [updates]. unfold Eff.trace, Eff.bind in *.
  destruct (update t s) as [[[] s1] tr1] eqn:Hstep.
  specialize (IH s1). destruct (updates ts s1) as [[[] s2] tr2]. cbn in *.
  intros [Hin|Hin]%elem_of_app; [|by apply IH].
  exists s, t. by rewrite Hstep.
Qed.

(** C7. In any run of the application ([setup], then any number of
    ticks), every call of the Feature Detector asks for at most
    [MAX_FEATURES] = 300 points, with quality level 0.005 and minimum
    distance 3.0. *)
Theorem detector_called_with_fixed_constants o ts image n q d :
  GoodFeaturesToTrack image n q d ∈ Eff.trace (setup o ;; updates ts)%eff constructed →
  n = 300 ∧ q = 0.005%Q ∧ d = 3.0%Q.
Proof.
  unfold Eff.trace at 1, Eff.bind.
  destruct (setup o constructed) as [[[] s0] tr0] eqn:Hsetup.
  pose proof (updates_trace_elem ts s0) as Hticks. unfold Eff.trace at 1 in Hticks.
  destruct (updates ts s0) as [[[] s1] tr1]. cbn.
  intros [Hin|Hin]%elem_of_app.
  - destruct o; cbn in Hsetup; simplify_eq;
      repeat (apply elem_of_cons in Hin as [Hin|Hin]; [discriminate|]);
      by apply elem_of_nil in Hin.
  - destruct (Hticks _ Hin) as (s' & t & Hin').
    exact (detector_args_tick _ _ _ _ _ _ Hin').
Qed.

(** *** Bounds of the line loop *)

Lemma update_inBounds s t : parallel_outputs → inBounds s → inBounds (Eff.state (update t) s).
Proof.
  intros Hpar [Hstat Hprev]. unfold inBounds.
  destruct (current s t) as [surface|] eqn:Hcur;
    [destruct (mPrevFrame s) as [prevFrame|] eqn:Hpf|].
  - destruct (update_state_tracking s t surface prevFrame Hcur Hpf) as (Hp & _ & Hf).
    destruct (featuresToTrack s (elapsedFrames t) (toOcv surface)) as [|p feats].
    + destruct Hf as [-> _]. cbn. lia.
    + destruct Hf as [-> ->]. rewrite Hp.
      specialize (Hpar prevFrame (toOcv surface) (p :: feats)).
      destruct (calcOpticalFlowPyrLK _ _ _) as [[nextPts status] errors]. cbn.
      cbn in Hpar. lia.
  - destruct (update_state_untracked s t) as (-> & -> & ->); [by right | done].
  - destruct (update_state_untracked s t) as (-> & -> & ->); [by left | done].
Qed.

Lemma reachable_inBounds s : parallel_outputs → reachable s → inBounds s.
Proof.
  intros Hpar. induction 1 as [o | s t _ IH | s ev _ IH].
  - destruct o; split; cbn; lia.
  - by apply update_inBounds.
  - exact IH.
Qed.

(** C9. When the Flow Estimator returns one position and one status
    per input point, every reachable state has an empty current-feature
    list or a status list at least as long as it, and the line loop of
    [draw] reads no vector past its end: [draw] is defined. *)
Theorem draw_never_reads_out_of_bounds s :
  parallel_outputs → reachable s →
  (mFeatures s = [] ∨ (length (mFeatures s) ≤ length (mFeatureStatuses s))%nat) ∧
  is_Some (draw s).
Proof.
  intros Hpar Hreach. pose proof (reachable_inBounds s Hpar Hreach) as Hb.
  split; [right; apply Hb|].
  unfold draw.
  destruct (flowLines_in_bounds s (length (mFeatures s)) 0) as [lines ->];
    [lia | done | by eexists].
Qed.

End Properties.

(** * Further properties of the update loop and of draw *)

Section Further.
Context `{External}.

Ltac branch :=
  match goal with
  | |- context [match ?x with _ => _ end] =>
      lazymatch x with
      | context [match _ with _ => _ end] => fail
      | _ => destruct x eqn:?
      end
  end.

(** *** Which members a tick writes *)

Lemma findOpticalFlow_frames s elapsed :
  let s' := Eff.state (findOpticalFlow elapsed) s in
  mCapture s' = mCapture s ∧ mSurface s' = mSurface s ∧ mTexture s' = mTexture s ∧
  mPrevFrame s' = match mSurface s with
                  | Some surface => Some (toOcv surface)
                  | None => mPrevFrame s
                  end.
Proof.
  unfold Eff.state, findOpticalFlow, reseed, savePrevious, track,
    Eff.bind, Eff.get, Eff.modify, Eff.emit, Eff.ret.
  destruct s as [cap tex prevs feats prevFrame surf stats]; cbn.
  repeat (branch; cbn in * ); done.
Qed.

Lemma update_frames s t :
  let s' := Eff.state (update t) s in
  mCapture s' = mCapture s ∧
  mSurface s' = current s t ∧
  mTexture s' = match delivered s t with
                | Some surface => Some surface
                | None => mTexture s
                end ∧
  mPrevFrame s' = match currentFrame s t with
                  | Some frame => Some frame
                  | None => mPrevFrame s
                  end.
Proof.
  intros s'. subst s'. unfold Eff.state. rewrite update_after_camera.
  destruct (findOpticalFlow_frames (afterCamera s t) (elapsedFrames t))
    as (Hcap & Hsurf & Htex & Hprev).
  unfold Eff.state in Hcap, Hsurf, Htex, Hprev.
  rewrite Hcap, Hsurf, Htex, Hprev.
  unfold afterCamera, currentFrame, current.
  by destruct (delivered s t); cbn; [|destruct (mSurface s)].
Qed.

(** The texture on screen and the frame kept for the next flow
    computation are both the surface last captured. *)
Lemma reachable_frames s :
  reachable s → mTexture s = mSurface s ∧ mPrevFrame s = toOcv <$> mSurface s.
Proof.
  induction 1 as [o | s t _ [IHtex IHprev] | s ev _ IH]; [by destruct o | | exact IH].
  destruct (update_frames s t) as (_ & -> & -> & ->).
  unfold currentFrame, current. rewrite IHtex, IHprev.
  by destruct (delivered s t), (mSurface s).
Qed.

(** X1. A tick never touches [mCapture]; it stores the delivered frame
    as surface and as texture when there is one and leaves both alone
    otherwise; and whenever a surface is at hand it ends with that
    surface, converted, as the previous frame. *)
Theorem tick_writes_frames s t :
  let s' := Eff.state (update t) s in
  mCapture s' = mCapture s ∧
  mSurface s' = current s t ∧
  mTexture s' = match delivered s t with
                | Some surface => Some surface
                | None => mTexture s
                end ∧
  mPrevFrame s' = match currentFrame s t with
                  | Some frame => Some frame
                  | None => mPrevFrame s
                  end.
Proof.
  intros s'. subst s'. unfold Eff.state. rewrite update_after_camera.
  destruct (findOpticalFlow_frames (afterCamera s t) (elapsedFrames t))
    as (Hcap & Hsurf & Htex & Hprev).
  unfold Eff.state in Hcap, Hsurf, Htex, Hprev.
  rewrite Hcap, Hsurf, Htex, Hprev.
  unfold afterCamera, currentFrame, current.
  by destruct (delivered s t); cbn; [|destruct (mSurface s)].
Qed.

(** X2. In every reachable state the texture shows the surface last
    captured, and the previous frame is that same surface converted:
    the three are set together and never drift apart. *)
Theorem texture_and_previous_frame_follow_surface s :
  reachable s → mTexture s = mSurface s ∧ mPrevFrame s = toOcv <$> mSurface s.
Proof.
  induction 1 as [o | s t _ [IHtex IHprev] | s ev _ IH]; [by destruct o | | exact IH].
  destruct (update_frames s t) as (_ & -> & -> & ->).
  unfold currentFrame, current. rewrite IHtex, IHprev.
  by destruct (delivered s t), (mSurface s).
Qed.

(** *** What the collaborators are handed *)

Lemma callsOf_cases s t :
  callsOf s t = [] ∨
  ∃ surface prevFrame,
    current s t = Some surface ∧ mPrevFrame s = Some prevFrame ∧
    let curFrame := toOcv surface in
    let feats := featuresToTrack s (elapsedFrames t) curFrame in
    let detect := GoodFeaturesToTrack curFrame MAX_FEATURES QUALITY_LEVEL MIN_DISTANCE in
    let flow := CalcOpticalFlowPyrLK prevFrame curFrame feats in
    (reseedDue s (elapsedFrames t) = true ∧ feats = [] ∧ callsOf s t = [detect]) ∨
    (reseedDue s (elapsedFrames t) = true ∧ feats ≠ [] ∧ callsOf s t = [detect; flow]) ∨
    (reseedDue s (elapsedFrames t) = false ∧ feats ≠ [] ∧ callsOf s t = [flow]).
Proof.
  unfold callsOf.
  destruct (current s t) as [surface|]; [|by left].
  destruct (mPrevFrame s) as [prevFrame|]; [|by left].
  right. exists surface, prevFrame. do 2 (split; [done|]). cbn.
  unfold featuresToTrack.
  destruct (reseedDue s (elapsedFrames t)) eqn:Hdue; cbn.
  - destruct (fresh (toOcv surface)); [by left | by right; left].
  - unfold reseedDue in Hdue. destruct (mFeatures s); [done|]. by right; right.
Qed.

(** X3. On a tick on which the camera delivers nothing, whatever is
    called is called on the stored frame: the Flow Estimator gets the
    same image as previous and as next frame, and the Feature Detector
    gets the frame that was already the previous one. *)
Theorem idle_tick_compares_frame_with_itself s t :
  reachable s → delivered s t = None →
  (∀ prevImg nextImg pts,
     CalcOpticalFlowPyrLK prevImg nextImg pts ∈ Eff.trace (update t) s →
     prevImg = nextImg) ∧
  (∀ image n q d,
     GoodFeaturesToTrack image n q d ∈ Eff.trace (update t) s →
     mPrevFrame s = Some image).
Proof.
  intros Hreach Hd. rewrite update_trace.
  destruct (reachable_frames s Hreach) as [_ Hprev].
  destruct (callsOf_cases s t) as [-> | (surface & prevFrame & Hcur & Hpf & Hcases)];
    [by split; intros; exfalso; eapply not_elem_of_nil|].
  assert (Hsame : prevFrame = toOcv surface).
  { unfold current in Hcur. rewrite Hd in Hcur. rewrite Hcur, Hpf in Hprev.
    cbn in Hprev. congruence. }
  cbn in Hcases. rewrite Hpf, Hsame.
  destruct Hcases as [(_ & _ & ->) | [(_ & _ & ->) | (_ & _ & ->)]];
    split; intros;
    repeat match goal with
           | Hin : _ ∈ _ :: _ |- _ => apply elem_of_cons in Hin as [Hin|Hin]
           | Hin : _ ∈ [] |- _ => by apply elem_of_nil in Hin
           end; congruence.
Qed.

(** X4. The Flow Estimator is never called on an empty point list; the
    list it is given is the one the tick leaves in [mPrevFeatures], and
    its first image is the previous frame the tick started with. *)
Theorem flow_never_on_empty_list s t prevImg nextImg pts :
  CalcOpticalFlowPyrLK prevImg nextImg pts ∈ Eff.trace (update t) s →
  pts ≠ [] ∧
  mPrevFeatures (Eff.state (update t) s) = pts ∧
  mPrevFrame s = Some prevImg ∧
  currentFrame s t = Some nextImg.
Proof.
  rewrite update_trace.
  destruct (callsOf_cases s t) as [-> | (surface & prevFrame & Hcur & Hpf & Hcases)];
    [by intros ?%elem_of_nil|].
  destruct (update_state_tracking s t surface prevFrame Hcur Hpf) as (Hp & _ & _).
  unfold currentFrame. rewrite Hcur, Hpf, Hp. cbn in Hcases.
  destruct Hcases as [(_ & _ & ->) | [(_ & Hne & ->) | (_ & Hne & ->)]]; intros Hin;
    repeat match goal with
           | Hin : _ ∈ _ :: _ |- _ => apply elem_of_cons in Hin as [Hin|Hin]
           | Hin : _ ∈ [] |- _ => by apply elem_of_nil in Hin
           end; try discriminate; by simplify_eq.
Qed.

(** X5. When one tick calls both collaborators, the detector is called
    first and the estimator is handed exactly the corners the detector
    returned, on the image the detector looked at. *)
Theorem detector_output_fed_to_flow s t image n q d prevImg nextImg pts :
  GoodFeaturesToTrack image n q d ∈ Eff.trace (update t) s →
  CalcOpticalFlowPyrLK prevImg nextImg pts ∈ Eff.trace (update t) s →
  Eff.trace (update t) s
    = [GoodFeaturesToTrack image n q d; CalcOpticalFlowPyrLK prevImg nextImg pts] ∧
  nextImg = image ∧
  pts = goodFeaturesToTrack image n q d.
Proof.
  rewrite update_trace.
  destruct (callsOf_cases s t) as [-> | (surface & prevFrame & Hcur & Hpf & Hcases)];
    [by intros ?%elem_of_nil|].
  cbn in Hcases. unfold featuresToTrack in Hcases.
  destruct Hcases as [(Hdue & _ & ->) | [(Hdue & _ & ->) | (Hdue & _ & ->)]];
    rewrite ?Hdue; intros Hdet Hflow;
    repeat match goal with
           | Hin : _ ∈ _ :: _ |- _ => apply elem_of_cons in Hin as [Hin|Hin]
           | Hin : _ ∈ [] |- _ => by apply elem_of_nil in Hin
           end; try discriminate.
  by simplify_eq.
Qed.

(** X6. A tick calls the detector at most once and the estimator at
    most once, and it never logs. *)
Theorem tick_calls_each_collaborator_at_most_once s t :
  (length (List.filter isDetect (Eff.trace (update t) s)) ≤ 1)%nat ∧
  (length (List.filter isFlow (Eff.trace (update t) s)) ≤ 1)%nat ∧
  List.filter isLog (Eff.trace (update t) s) = [].
Proof.
  rewrite update_trace.
  destruct (callsOf_cases s t) as [-> | (surface & prevFrame & _ & _ & Hcases)];
    [cbn; auto with lia|].
  cbn in Hcases.
  destruct Hcases as [(_ & _ & ->) | [(_ & _ & ->) | (_ & _ & ->)]]; cbn; auto with lia.
Qed.

Lemma tick_never_logs s t e : e ∈ Eff.trace (update t) s → isLog e = false.
Proof.
  rewrite update_trace.
  destruct (callsOf_cases s t) as [-> | (surface & prevFrame & _ & _ & Hcases)];
    [by intros ?%elem_of_nil|].
  cbn in Hcases.
  destruct Hcases as [(_ & _ & ->) | [(_ & _ & ->) | (_ & _ & ->)]]; intros Hin;
    repeat match goal with
           | Hin : _ ∈ _ :: _ |- _ => apply elem_of_cons in Hin as [Hin|Hin]
           | Hin : _ ∈ [] |- _ => by apply elem_of_nil in Hin
           end; by subst.
Qed.

Lemma filter_none {A} (f : A → bool) (l : list A) :
  (∀ x, x ∈ l → f x = false) → List.filter f l = [].
Proof.
  induction l as [|x l IH]; intros Hall; [done|]. cbn.
  rewrite (Hall x) by left. apply IH. intros y Hy. apply Hall. by right.
Qed.

(** X7. Over a whole run, [setup] followed by any ticks, the log holds
    one entry when the capture failed to initialise and none when it
    started: nothing after [setup] ever logs. *)
Theorem run_logs_once_iff_capture_failed o ts :
  length (List.filter isLog (Eff.trace (setup o ;; updates ts)%eff constructed))
  = if initFailed o then 1%nat else 0%nat.
Proof.
  unfold Eff.trace at 1, Eff.bind.
  destruct (setup o constructed) as [[[] s0] tr0] eqn:Hsetup.
  pose proof (updates_trace_elem ts s0) as Hticks. unfold Eff.trace at 1 in Hticks.
  destruct (updates ts s0) as [[[] s1] tr1]. cbn.
  rewrite List.filter_app, length_app, (filter_none isLog tr1).
  - destruct o; cbn in Hsetup; by simplify_eq.
  - intros e He. destruct (Hticks e He) as (s' & t & Hin).
    by apply (tick_never_logs s' t).
Qed.

(** *** Between two re-detections *)

(** X8. With an estimator that returns one position and one status per
    point: on a tick that finds features and is not a re-seed tick, the
    estimator alone is called, the old current features become the
    previous ones, and the number of current features and of statuses
    is the number of features there were. *)
Theorem feature_count_constant_between_reseeds s t :
  parallel_outputs → reachable s →
  mFeatures s ≠ [] → elapsedFrames t mod 300 ≠ 0 →
  let s' := Eff.state (update t) s in
  invokesDetector (Eff.trace (update t) s) = false ∧
  invokesFlow (Eff.trace (update t) s) = true ∧
  mPrevFeatures s' = mFeatures s ∧
  length (mFeatures s') = length (mFeatures s) ∧
  length (mFeatureStatuses s') = length (mFeatures s).
Proof.
  intros Hpar Hreach Hfeats Hmod s'.
  destruct (reachable_consistent s Hreach) as [Hiff Hempty].
  destruct (mPrevFrame s) as [prevFrame|] eqn:Hpf;
    [|by destruct (Hempty eq_refl) as (? & _)].
  assert (Hcur : ∃ surface, current s t = Some surface).
  { unfold current. destruct (delivered s t); [by eexists|].
    destruct (mSurface s); [by eexists|]. by destruct Hiff as [_ Hiff]; discriminate Hiff. }
  destruct Hcur as [surface Hcur].
  assert (Hdue : reseedDue s (elapsedFrames t) = false).
  { destruct (reseedDue s (elapsedFrames t)) eqn:Hdue; [|done].
    apply reseedDue_spec in Hdue as [?|?]; done. }
  destruct (update_state_tracking s t surface prevFrame Hcur Hpf) as (Hp & _ & Hf).
  fold s' in Hp, Hf. rewrite update_trace. unfold callsOf.
  rewrite Hcur, Hpf. unfold featuresToTrack in *. rewrite Hdue in *. cbn.
  destruct (mFeatures s) as [|p feats] eqn:Hfs; [done|]. cbn.
  destruct Hf as [-> ->]. specialize (Hpar prevFrame (toOcv surface) (p :: feats)).
  destruct (calcOpticalFlowPyrLK _ _ _) as [[nextPts status] errors]. cbn in *.
  by destruct Hpar as [-> ->].
Qed.

(** X9. The statuses are written by the estimator only: a tick that
    does not call it leaves [mFeatureStatuses] as it was, whatever
    happens to the feature lists. *)
Theorem statuses_change_only_with_flow s t :
  invokesFlow (Eff.trace (update t) s) = false →
  mFeatureStatuses (Eff.state (update t) s) = mFeatureStatuses s.
Proof.
  rewrite update_trace.
  destruct (current s t) as [surface|] eqn:Hcur;
    [|intros _; by apply update_state_untracked; left].
  destruct (mPrevFrame s) as [prevFrame|] eqn:Hpf;
    [|intros _; by apply update_state_untracked; right].
  destruct (update_state_tracking s t surface prevFrame Hcur Hpf) as (_ & _ & Hf).
  unfold callsOf. rewrite Hcur, Hpf. unfold invokesFlow. rewrite existsb_app.
  destruct (featuresToTrack s (elapsedFrames t) (toOcv surface)).
  - intros _. by destruct Hf.
  - cbn. rewrite orb_true_r. discriminate.
Qed.

(** *** draw *)

Lemma lineAt_defined s i :
  is_Some (lineAt s i) ↔
  ∃ status, mFeatureStatuses s !! i = Some status ∧
    (status ≠ 0 → is_Some (mFeatures s !! i) ∧ is_Some (mPrevFeatures s !! i)).
Proof.
  unfold lineAt. destruct (mFeatureStatuses s !! i) as [st|]; cbn.
  - destruct (N.eqb_spec st 0) as [->|Hne].
    + split; [|by eexists]. intros _. by exists 0.
    + destruct (mFeatures s !! i) as [cur|], (mPrevFeatures s !! i) as [prev|]; cbn.
      * split; [|by eexists]. intros _. exists st. split; [done|]. by split; eexists.
      * split; [by intros [? ?]|]. intros (st' & ? & Hdef). simplify_eq.
        by destruct (Hdef Hne) as [_ [? ?]].
      * split; [by intros [? ?]|]. intros (st' & ? & Hdef). simplify_eq.
        by destruct (Hdef Hne) as [[? ?] _].
      * split; [by intros [? ?]|]. intros (st' & ? & Hdef). simplify_eq.
        by destruct (Hdef Hne) as [[? ?] _].
  - split; [by intros [? ?]|]. by intros (? & ? & _).
Qed.

Lemma flowLines_defined s remaining idx :
  is_Some (flowLines s remaining idx) ↔
  ∀ i, (idx ≤ i < idx + remaining)%nat → is_Some (lineAt s i).
Proof.
  split.
  - intros [lines Hrun]. by apply (flowLines_spec s remaining idx lines).
  - revert idx. induction remaining as [|remaining IH]; intros idx Hall; [by eexists|].
    cbn [flowLines].
    destruct (Hall idx) as [seg ->]; [lia|].
    destruct (IH (S idx)) as [rest ->]; [intros i Hi; apply Hall; lia|].
    by eexists.
Qed.

(** X10. [draw] completes without reading past the end of a vector
    exactly when every index of the current-feature list has a status,
    and has a previous feature wherever that status is nonzero. *)
Theorem draw_defined_iff_reads_in_range s :
  is_Some (draw s) ↔
  ∀ i, (i < length (mFeatures s))%nat →
    ∃ status, mFeatureStatuses s !! i = Some status ∧
      (status ≠ 0 → (i < length (mPrevFeatures s))%nat).
Proof.
  unfold draw. split.
  - intros [cmds Hdraw] i Hi.
    destruct (flowLines s (length (mFeatures s)) 0) as [lines|] eqn:Hrun; [|done].
    assert (Hline : is_Some (lineAt s i)).
    { apply (flowLines_defined s (length (mFeatures s)) 0); [by eexists | lia]. }
    apply lineAt_defined in Hline as (status & Hstat & Hdef).
    exists status. split; [done|]. intros Hne.
    destruct (Hdef Hne) as [_ Hprev]. by apply lookup_lt_is_Some_1.
  - intros Hall.
    destruct (proj2 (flowLines_defined s (length (mFeatures s)) 0)) as [lines ->];
      [|by eexists].
    intros i [_ Hi]. apply lineAt_defined.
    destruct (Hall i) as (status & Hstat & Hprev); [lia|].
    exists status. split; [done|]. intros Hne. split.
    + apply lookup_lt_is_Some_2. lia.
    + apply lookup_lt_is_Some_2. by apply Hprev.
Qed.

Lemma overlay_vertices s : List.filter isVertex (overlay s) = [].
Proof.
  apply filter_none. intros c Hc. destruct c; try done.
  by destruct (overlay_has_no_vertex s p).
Qed.

Lemma flowLines_vertices s remaining idx lines :
  flowLines s remaining idx = Some lines →
  length (List.filter isVertex lines)
  = (2 * length (List.filter matched (take remaining (drop idx (mFeatureStatuses s)))))%nat.
Proof.
  revert idx lines. induction remaining as [|remaining IH]; intros idx lines Hrun.
  - cbn in Hrun. by simplify_eq.
  - cbn [flowLines] in Hrun.
    destruct (lineAt s idx) as [segment|] eqn:Hseg; [|done]. cbn in Hrun.
    destruct (flowLines s remaining (S idx)) as [rest|] eqn:Hrest; [|done].
    cbn in Hrun. simplify_eq.
    destruct (lineAt_cases _ _ _ Hseg) as (status & Hstat & Hcases).
    rewrite (drop_S _ _ _ Hstat). cbn [take List.filter].
    rewrite List.filter_app, length_app, (IH _ _ Hrest).
    destruct Hcases as [[-> ->] | (Hne & cur & prev & _ & _ & ->)]; [done|].
    assert (Hm : matched status = true)
      by (unfold matched; by destruct (N.eqb_spec status 0)).
    rewrite Hm. cbn. lia.
Qed.

(** X11. Whenever [draw] completes, it sends two vertices for every
    nonzero status among the first [mFeatures.size()] statuses, and no
    other vertex. *)
Theorem draw_sends_two_vertices_per_match s cmds :
  draw s = Some cmds →
  length (List.filter isVertex cmds)
  = (2 * length (List.filter matched
                   (take (length (mFeatures s)) (mFeatureStatuses s))))%nat.
Proof.
  intros Hdraw. destruct (draw_shape _ _ Hdraw) as (lines & Hrun & ->).
  rewrite List.filter_app, overlay_vertices. cbn [app List.filter isVertex].
  rewrite List.filter_app, length_app. cbn. rewrite Nat.add_0_r.
  by rewrite (flowLines_vertices _ _ _ _ Hrun).
Qed.

(** X12. Before the first frame has been captured [draw] is defined
    and sends neither a texture, nor a circle, nor a line: only the
    clear and the colour changes. *)
Theorem draw_before_first_frame s :
  reachable s → mSurface s = None →
  draw s = Some [glClear 0 0 0; glColor 1 1 1 0.55; glColor 1 0 0 0.55;
                 glColor 0 0 1 0.5; glColor 0 1 0 0.5; glBegin_LINES; glEnd].
Proof.
  intros Hreach Hsurf.
  destruct (reachable_frames s Hreach) as [Htex _].
  destruct (reachable_consistent s Hreach) as [Hiff Hempty].
  destruct Hempty as (Hf & Hp & _); [by apply Hiff|].
  unfold draw, overlay. by rewrite Hf, Hp, Htex, Hsurf.
Qed.

(** X13. A re-detection that finds no corner empties both feature
    lists, calls the detector alone, leaves the statuses of the earlier
    tick in place, and [draw] then sends no circle and no line: the
    statuses left behind are never read. *)
Theorem empty_redetection_clears_overlay s t surface prevFrame :
  reachable s →
  current s t = Some surface → mPrevFrame s = Some prevFrame →
  reseedDue s (elapsedFrames t) = true → fresh (toOcv surface) = [] →
  let s' := Eff.state (update t) s in
  mFeatures s' = [] ∧ mPrevFeatures s' = [] ∧
  mFeatureStatuses s' = mFeatureStatuses s ∧
  Eff.trace (update t) s
    = [GoodFeaturesToTrack (toOcv surface) MAX_FEATURES QUALITY_LEVEL MIN_DISTANCE] ∧
  draw s' = Some ([glClear 0 0 0; glColor 1 1 1 0.55; glDrawTexture surface;
                   glColor 1 0 0 0.55; glColor 0 0 1 0.5; glColor 0 1 0 0.5;
                   glBegin_LINES; glEnd]).
Proof.
  intros Hreach Hcur Hpf Hdue Hfresh s'.
  destruct (update_state_tracking s t surface prevFrame Hcur Hpf) as (Hp & _ & Hf).
  destruct (update_frames s t) as (_ & Hsurf & _ & _).
  destruct (reachable_frames s' (reach_update s t Hreach)) as [Htex _].
  fold s' in Hp, Hf, Hsurf.
  unfold featuresToTrack in Hp, Hf. rewrite Hdue, Hfresh in Hp, Hf.
  destruct Hf as [Hf Hs].
  split; [done|]. split; [done|]. split; [done|]. split.
  - rewrite update_trace. unfold callsOf, featuresToTrack.
    by rewrite Hcur, Hpf, Hdue, Hfresh.
  - unfold draw, overlay. by rewrite Hf, Hp, Htex, Hsurf, Hcur.
Qed.

(** X14. When the estimator is called, what it returns is stored as it
    is: [mFeatures] becomes its new positions and [mFeatureStatuses] its
    statuses, lost points included; nothing is dropped from the list. *)
Theorem flow_outputs_stored_unfiltered s t prevImg nextImg pts :
  CalcOpticalFlowPyrLK prevImg nextImg pts ∈ Eff.trace (update t) s →
  mFeatures (Eff.state (update t) s) = (calcOpticalFlowPyrLK prevImg nextImg pts).1.1 ∧
  mFeatureStatuses (Eff.state (update t) s) = (calcOpticalFlowPyrLK prevImg nextImg pts).1.2.
Proof.
  rewrite update_trace.
  destruct (callsOf_cases s t) as [-> | (surface & prevFrame & Hcur & Hpf & Hcases)];
    [by intros ?%elem_of_nil|].
  destruct (update_state_tracking s t surface prevFrame Hcur Hpf) as (_ & _ & Hf).
  cbn in Hcases.
  destruct Hcases as [(_ & _ & ->) | [(_ & Hne & ->) | (_ & Hne & ->)]]; intros Hin;
    repeat match goal with
           | Hin : _ ∈ _ :: _ |- _ => apply elem_of_cons in Hin as [Hin|Hin]
           | Hin : _ ∈ [] |- _ => by apply elem_of_nil in Hin
           end; try discriminate; simplify_eq;
    by destruct (featuresToTrack s (elapsedFrames t) (toOcv surface)).
Qed.

Lemma updates_cons_state t ts s :
  Eff.state (updates (t :: ts)) s = Eff.state (updates ts) (Eff.state (update t) s).
Proof.
  cbn [updates]. unfold Eff.state, Eff.bind.
  destruct (update t s) as [[[] s1] tr1]. cbn.
  by destruct (updates ts s1) as [[[] s2] tr2].
Qed.

(** X15. After any number of ticks the stored surface is the frame the
    camera delivered last (the surface held before, if it delivered
    none), provided there is a capture to poll; without one the surface
    never changes. *)
Theorem surface_is_latest_delivered ts s :
  mSurface (Eff.state (updates ts) s)
  = match mCapture s with
    | Some _ => latestFrame ts (mSurface s)
    | None => mSurface s
    end.
Proof.
  revert s. induction ts as [|t ts IH]; intros s; [by destruct (mCapture s)|].
  rewrite updates_cons_state, IH.
  destruct (update_frames s t) as (-> & -> & _ & _).
  unfold current, delivered, latestFrame. cbn [fold_left].
  by destruct (mCapture s), (newFrame t).
Qed.

End Further.

(** * The theorems at work in the concrete world *)

Import Demo.

Lemma demo_parallel_outputs : @parallel_outputs world.
Proof.
  intros prevImg nextImg prevPts. cbn. rewrite length_map. split; [done|].
  destruct prevPts; cbn; [done|]. by rewrite repeat_length.
Qed.

Lemma booted_reachable : reachable booted.
Proof. apply reach_setup. Qed.

Lemma afterFirst_reachable : reachable afterFirst.
Proof. apply reach_update, booted_reachable. Qed.

Lemma afterSecond_reachable : reachable afterSecond.
Proof. apply reach_update, afterFirst_reachable. Qed.

(** The third frame arrives with two features being tracked and the
    counter at 3: the estimator runs, the detector does not. *)
Lemma redetect_exactly_when_due_witness :
  reachable afterSecond ∧ mPrevFrame afterSecond ≠ None ∧
  let tr := Eff.trace (update (frame 3 3)) afterSecond in
  (invokesDetector tr = true ↔
   (mFeatures afterSecond = [] ∨ elapsedFrames (frame 3 3) mod 300 = 0)) ∧
  (¬ (mFeatures afterSecond = [] ∨ elapsedFrames (frame 3 3) mod 300 = 0) →
   invokesDetector tr = false ∧ invokesFlow tr = true ∧ mFeatures afterSecond ≠ []).
Proof.
  split; [exact afterSecond_reachable|].
  split; [vm_compute; discriminate|].
  apply (redetect_exactly_when_due afterSecond (frame 3 3)).
  - exact afterSecond_reachable.
  - vm_compute. discriminate.
Defined.

(** Two passes of the loop without a frame, then frame 1. *)
Lemma first_frame_only_stored_witness :
  let idle := [noFrame 0; noFrame 1] in
  let s1 := Eff.state (updates idle) booted in
  Forall (λ t', delivered booted t' = None) idle ∧
  delivered booted (frame 1 2) = Some 1%nat ∧
  Eff.trace (updates idle) booted = [] ∧
  Eff.trace (update (frame 1 2)) s1 = [] ∧
  mPrevFrame (Eff.state (update (frame 1 2)) s1) = Some 1%nat ∧
  mFeatures (Eff.state (update (frame 1 2)) s1) = [] ∧
  mPrevFeatures (Eff.state (update (frame 1 2)) s1) = [].
Proof.
  intros idle s1.
  split; [repeat constructor|]. split; [reflexivity|].
  apply (first_frame_only_stored Started idle (frame 1 2) 1%nat).
  - repeat constructor.
  - reflexivity.
Defined.

(** C3 as stated fails: the second frame triggers a re-detection (the
    feature list is empty), the estimator then moves both points, and
    the tick ends with the two lists different. *)
Lemma redetect_tick_ends_unequal :
  reachable afterFirst ∧
  mPrevFrame afterFirst ≠ None ∧
  invokesDetector (Eff.trace (update (frame 2 2)) afterFirst) = true ∧
  mPrevFeatures (Eff.state (update (frame 2 2)) afterFirst)
    ≠ mFeatures (Eff.state (update (frame 2 2)) afterFirst).
Proof.
  split; [exact afterFirst_reachable|]. vm_compute. repeat split; discriminate.
Qed.

Lemma redetect_equal_until_flow_witness :
  current afterFirst (frame 2 2) = Some 2%nat ∧
  mPrevFrame afterFirst = Some 1%nat ∧
  reseedDue afterFirst (elapsedFrames (frame 2 2)) = true ∧
  let mid := Eff.state (reseed (toOcv 2%nat) 2 ;; savePrevious)%eff
               (afterCamera afterFirst (frame 2 2)) in
  let s' := Eff.state (update (frame 2 2)) afterFirst in
  (mFeatures mid = fresh (toOcv 2%nat) ∧ mPrevFeatures mid = fresh (toOcv 2%nat)) ∧
  s' = Eff.state (track 1%nat (toOcv 2%nat) ;;
                  Eff.modify (set_mPrevFrame (Some (toOcv 2%nat))))%eff mid ∧
  mPrevFeatures s' = fresh (toOcv 2%nat) ∧
  mFeatures s' = match fresh (toOcv 2%nat) with
                 | [] => []
                 | _ :: _ => (calcOpticalFlowPyrLK 1%nat (toOcv 2%nat) (fresh (toOcv 2%nat))).1.1
                 end.
Proof.
  do 3 (split; [reflexivity|]).
  apply (redetect_equal_until_flow afterFirst (frame 2 2) 2%nat 1%nat); reflexivity.
Defined.

(** A dark frame at a re-seed tick empties both feature lists and
    leaves the statuses of the previous tick behind. *)
Example stale_statuses_after_empty_redetection :
  let s' := Eff.state (update (frame 0 300)) afterSecond in
  mFeatures s' = [] ∧ mPrevFeatures s' = [] ∧ mFeatureStatuses s' = [1; 0].
Proof. by vm_compute. Qed.

(** C4 as stated fails: with frame 1 already captured, a tick on which
    the camera delivers nothing still runs [findOpticalFlow] on the
    stored surface; here it detects and tracks, and the state changes. *)
Lemma no_frame_tick_still_tracks :
  delivered afterFirst (noFrame 3) = None ∧
  invokesDetector (Eff.trace (update (noFrame 3)) afterFirst) = true ∧
  invokesFlow (Eff.trace (update (noFrame 3)) afterFirst) = true ∧
  Eff.state (update (noFrame 3)) afterFirst ≠ afterFirst.
Proof. vm_compute. repeat split; discriminate. Qed.

Lemma no_frame_no_surface_is_noop_witness :
  delivered booted (noFrame 0) = None ∧ mSurface booted = None ∧
  Eff.state (update (noFrame 0)) booted = booted ∧
  Eff.trace (update (noFrame 0)) booted = [].
Proof.
  do 2 (split; [reflexivity|]).
  apply (no_frame_no_surface_is_noop booted (noFrame 0)); reflexivity.
Defined.

Lemma flow_keeps_sequences_parallel_witness :
  @parallel_outputs world ∧
  invokesFlow (Eff.trace (update (frame 2 2)) afterFirst) = true ∧
  let s' := Eff.state (update (frame 2 2)) afterFirst in
  length (mFeatures s') = length (mPrevFeatures s') ∧
  length (mFeatureStatuses s') = length (mPrevFeatures s') ∧
  ∃ surface, current afterFirst (frame 2 2) = Some surface ∧
    mPrevFeatures s' = featuresToTrack afterFirst 2 (toOcv surface).
Proof.
  split; [exact demo_parallel_outputs|]. split; [reflexivity|].
  apply (flow_keeps_sequences_parallel afterFirst (frame 2 2)).
  - exact demo_parallel_outputs.
  - reflexivity.
Defined.

(** After the second frame the first feature is matched and the second
    is lost: one segment is sent. *)
Lemma line_drawn_iff_status_nonzero_witness :
  let cmds := overlay afterSecond
              ++ [glBegin_LINES; glVertex (11, 10)%Z; glVertex (10, 10)%Z; glEnd] in
  draw afterSecond = Some cmds ∧
  ∃ lines,
    cmds = overlay afterSecond ++ glBegin_LINES :: lines ++ [glEnd] ∧
    (∀ p, glVertex p ∉ overlay afterSecond) ∧
    lines = concat (map (λ i, default [] (lineAt afterSecond i))
                      (seq 0 (length (mFeatures afterSecond)))) ∧
    ∀ i, (i < length (mFeatures afterSecond))%nat →
      ∃ status, mFeatureStatuses afterSecond !! i = Some status ∧
        (emitsLineAt afterSecond i ↔ status ≠ 0) ∧
        (status = 0 → lineAt afterSecond i = Some []).
Proof.
  intros cmds. split; [reflexivity|].
  apply (line_drawn_iff_status_nonzero afterSecond cmds). reflexivity.
Defined.

Lemma detector_called_with_fixed_constants_witness :
  GoodFeaturesToTrack 2%nat 300 0.005 3.0
    ∈ Eff.trace (setup Started ;; updates [frame 1 1; frame 2 2])%eff constructed ∧
  300 = 300 ∧ 0.005%Q = 0.005%Q ∧ 3.0%Q = 3.0%Q.
Proof.
  split; [vm_compute; left|].
  apply (detector_called_with_fixed_constants Started [frame 1 1; frame 2 2] 2%nat).
  vm_compute. left.
Defined.

(** [Capture::create] throws: one log entry, and two ticks on which a
    camera would have had frames change nothing. *)
Lemma failed_capture_permanent_noop_witness :
  let o := CreateThrows "no camera" in
  let ts := [frame 1 0; frame 2 1] in
  let s0 := Eff.state (setup o) constructed in
  initFailed o = true ∧
  (∀ exc, o = StartThrows exc → Forall (λ t, newFrame t = None) ts) ∧
  length (filter (λ e, isLog e = true) (Eff.trace (setup o) constructed)) = 1%nat ∧
  Eff.state (updates ts) s0 = s0 ∧
  Eff.trace (updates ts) s0 = [].
Proof.
  intros o ts s0. split; [reflexivity|].
  split; [intros exc Hexc; discriminate Hexc|].
  apply (failed_capture_permanent_noop o ts).
  - reflexivity.
  - intros exc Hexc. discriminate Hexc.
Defined.

Lemma draw_never_reads_out_of_bounds_witness :
  @parallel_outputs world ∧ reachable afterSecond ∧
  (mFeatures afterSecond = [] ∨
   (length (mFeatures afterSecond) ≤ length (mFeatureStatuses afterSecond))%nat) ∧
  is_Some (draw afterSecond).
Proof.
  split; [exact demo_parallel_outputs|]. split; [exact afterSecond_reachable|].
  apply (draw_never_reads_out_of_bounds afterSecond).
  - exact demo_parallel_outputs.
  - exact afterSecond_reachable.
Defined.

(** ** The further properties in the concrete world *)

Lemma texture_and_previous_frame_follow_surface_witness :
  reachable afterSecond ∧
  mTexture afterSecond = mSurface afterSecond ∧
  mPrevFrame afterSecond = toOcv <$> mSurface afterSecond.
Proof.
  split; [exact afterSecond_reachable|].
  apply (texture_and_previous_frame_follow_surface afterSecond).
  exact afterSecond_reachable.
Defined.

(** Frame 1 is stored and nothing new arrives: both calls see frame 1. *)
Lemma idle_tick_compares_frame_with_itself_witness :
  reachable afterFirst ∧ delivered afterFirst (noFrame 3) = None ∧
  (∀ prevImg nextImg pts,
     CalcOpticalFlowPyrLK prevImg nextImg pts ∈ Eff.trace (update (noFrame 3)) afterFirst →
     prevImg = nextImg) ∧
  (∀ image n q d,
     GoodFeaturesToTrack image n q d ∈ Eff.trace (update (noFrame 3)) afterFirst →
     mPrevFrame afterFirst = Some image).
Proof.
  split; [exact afterFirst_reachable|]. split; [reflexivity|].
  apply (idle_tick_compares_frame_with_itself afterFirst (noFrame 3)).
  - exact afterFirst_reachable.
  - reflexivity.
Defined.

Lemma flow_never_on_empty_list_witness :
  let pts := [(10, 10)%Z; (20, 30)%Z] in
  CalcOpticalFlowPyrLK 1%nat 2%nat pts ∈ Eff.trace (update (frame 2 2)) afterFirst ∧
  pts ≠ [] ∧
  mPrevFeatures (Eff.state (update (frame 2 2)) afterFirst) = pts ∧
  mPrevFrame afterFirst = Some 1%nat ∧
  currentFrame afterFirst (frame 2 2) = Some 2%nat.
Proof.
  intros pts. split; [vm_compute; right; left|].
  apply (flow_never_on_empty_list afterFirst (frame 2 2) 1%nat 2%nat pts).
  vm_compute. right. left.
Defined.

Lemma detector_output_fed_to_flow_witness :
  let pts := [(10, 10)%Z; (20, 30)%Z] in
  let tr := Eff.trace (update (frame 2 2)) afterFirst in
  GoodFeaturesToTrack 2%nat 300 0.005 3.0 ∈ tr ∧
  CalcOpticalFlowPyrLK 1%nat 2%nat pts ∈ tr ∧
  tr = [GoodFeaturesToTrack 2%nat 300 0.005 3.0; CalcOpticalFlowPyrLK 1%nat 2%nat pts] ∧
  2%nat = 2%nat ∧
  pts = goodFeaturesToTrack 2%nat 300 0.005 3.0.
Proof.
  intros pts tr. split; [vm_compute; left|]. split; [vm_compute; right; left|].
  apply (detector_output_fed_to_flow afterFirst (frame 2 2)
           2%nat 300 0.005%Q 3.0%Q 1%nat 2%nat pts).
  - vm_compute. left.
  - vm_compute. right. left.
Defined.

Lemma feature_count_constant_between_reseeds_witness :
  @parallel_outputs world ∧ reachable afterSecond ∧
  mFeatures afterSecond ≠ [] ∧ elapsedFrames (frame 3 3) mod 300 ≠ 0 ∧
  let s' := Eff.state (update (frame 3 3)) afterSecond in
  invokesDetector (Eff.trace (update (frame 3 3)) afterSecond) = false ∧
  invokesFlow (Eff.trace (update (frame 3 3)) afterSecond) = true ∧
  mPrevFeatures s' = mFeatures afterSecond ∧
  length (mFeatures s') = length (mFeatures afterSecond) ∧
  length (mFeatureStatuses s') = length (mFeatures afterSecond).
Proof.
  split; [exact demo_parallel_outputs|]. split; [exact afterSecond_reachable|].
  split; [vm_compute; discriminate|]. split; [vm_compute; discriminate|].
  apply (feature_count_constant_between_reseeds afterSecond (frame 3 3)).
  - exact demo_parallel_outputs.
  - exact afterSecond_reachable.
  - vm_compute. discriminate.
  - vm_compute. discriminate.
Defined.

(** A dark frame on a re-seed tick: the estimator is not called. *)
Lemma statuses_change_only_with_flow_witness :
  invokesFlow (Eff.trace (update (frame 0 300)) afterSecond) = false ∧
  mFeatureStatuses (Eff.state (update (frame 0 300)) afterSecond)
    = mFeatureStatuses afterSecond.
Proof.
  split; [reflexivity|].
  apply (statuses_change_only_with_flow afterSecond (frame 0 300)). reflexivity.
Defined.

Lemma draw_sends_two_vertices_per_match_witness :
  let cmds := overlay afterSecond
              ++ [glBegin_LINES; glVertex (11, 10)%Z; glVertex (10, 10)%Z; glEnd] in
  draw afterSecond = Some cmds ∧
  length (List.filter isVertex cmds)
  = (2 * length (List.filter matched
                   (take (length (mFeatures afterSecond))
                      (mFeatureStatuses afterSecond))))%nat.
Proof.
  intros cmds. split; [reflexivity|].
  apply (draw_sends_two_vertices_per_match afterSecond cmds). reflexivity.
Defined.

Lemma draw_before_first_frame_witness :
  reachable booted ∧ mSurface booted = None ∧
  draw booted = Some [glClear 0 0 0; glColor 1 1 1 0.55; glColor 1 0 0 0.55;
                      glColor 0 0 1 0.5; glColor 0 1 0 0.5; glBegin_LINES; glEnd].
Proof.
  split; [exact booted_reachable|]. split; [reflexivity|].
  apply (draw_before_first_frame booted).
  - exact booted_reachable.
  - reflexivity.
Defined.

Lemma empty_redetection_clears_overlay_witness :
  reachable afterSecond ∧
  current afterSecond (frame 0 300) = Some 0%nat ∧
  mPrevFrame afterSecond = Some 2%nat ∧
  reseedDue afterSecond (elapsedFrames (frame 0 300)) = true ∧
  fresh (toOcv 0%nat) = [] ∧
  let s' := Eff.state (update (frame 0 300)) afterSecond in
  mFeatures s' = [] ∧ mPrevFeatures s' = [] ∧
  mFeatureStatuses s' = mFeatureStatuses afterSecond ∧
  Eff.trace (update (frame 0 300)) afterSecond
    = [GoodFeaturesToTrack (toOcv 0%nat) MAX_FEATURES QUALITY_LEVEL MIN_DISTANCE] ∧
  draw s' = Some ([glClear 0 0 0; glColor 1 1 1 0.55; glDrawTexture 0%nat;
                   glColor 1 0 0 0.55; glColor 0 0 1 0.5; glColor 0 1 0 0.5;
                   glBegin_LINES; glEnd]).
Proof.
  split; [exact afterSecond_reachable|]. do 4 (split; [reflexivity|]).
  apply (empty_redetection_clears_overlay afterSecond (frame 0 300) 0%nat 2%nat);
    [exact afterSecond_reachable | reflexivity ..].
Defined.

Lemma flow_outputs_stored_unfiltered_witness :
  let pts := [(10, 10)%Z; (20, 30)%Z] in
  let s' := Eff.state (update (frame 2 2)) afterFirst in
  CalcOpticalFlowPyrLK 1%nat 2%nat pts ∈ Eff.trace (update (frame 2 2)) afterFirst ∧
  mFeatures s' = (calcOpticalFlowPyrLK 1%nat 2%nat pts).1.1 ∧
  mFeatureStatuses s' = (calcOpticalFlowPyrLK 1%nat 2%nat pts).1.2.
Proof.
  intros pts s'. split; [vm_compute; right; left|].
  apply (flow_outputs_stored_unfiltered afterFirst (frame 2 2) 1%nat 2%nat pts).
  vm_compute. right. left.
Defined.
